(** * Qubit rotation: a shallow embedding of [basics/qubit_rotation.py]

    The script builds a one-wire simulator device, defines two quantum
    functions ([circuit], [circuit2]) that apply an RX and an RY rotation and
    measure the expectation value of PauliZ, differentiates them, and runs
    100 steps of gradient descent on [cost].

    Numbers are the real numbers of the Standard Library: the gates, the
    expectation value and the optimiser are modelled with exact arithmetic,
    the rounding of double precision is not part of the model.  The
    library calls of the script ([qml.RX], [qml.RY], [qml.expval],
    [qml.grad], [GradientDescentOptimizer.step], [print]) are modelled by
    their documented meaning. *)

From Stdlib Require Import Reals Lra Lia List Arith ZArith.
Import ListNotations.
Local Open Scope R_scope.

(** ** Complex amplitudes and the state of one qubit *)

Module Qubit.

(** A complex number as its real and imaginary part. *)
Definition C : Type := (R * R)%type.

Definition Cre (z : C) : R := fst z.
Definition Cim (z : C) : R := snd z.
Definition Cplus (z w : C) : C := (Cre z + Cre w, Cim z + Cim w).
Definition Cmult (z w : C) : C :=
  (Cre z * Cre w - Cim z * Cim w, Cre z * Cim w + Cim z * Cre w).
Definition Cmod2 (z : C) : R := Cre z * Cre z + Cim z * Cim z.

(** The state vector [alpha |0> + beta |1>]. *)
Record state : Type := mkState { alpha : C; beta : C }.

Definition ket0 : state := mkState (1, 0) (0, 0).

(** A 2x2 complex matrix, row by row. *)
Record matrix : Type := mkMatrix { m00 : C; m01 : C; m10 : C; m11 : C }.

Definition apply_matrix (m : matrix) (s : state) : state :=
  mkState (Cplus (Cmult (m00 m) (alpha s)) (Cmult (m01 m) (beta s)))
          (Cplus (Cmult (m10 m) (alpha s)) (Cmult (m11 m) (beta s))).

(** RX(phi) = exp(-i phi X / 2). *)
Definition RX_matrix (phi : R) : matrix :=
  let c := cos (phi / 2) in
  let s := sin (phi / 2) in
  mkMatrix (c, 0) (0, - s) (0, - s) (c, 0).

(** RY(phi) = exp(-i phi Y / 2). *)
Definition RY_matrix (phi : R) : matrix :=
  let c := cos (phi / 2) in
  let s := sin (phi / 2) in
  mkMatrix (c, 0) (- s, 0) (s, 0) (c, 0).

(** <psi| Z |psi> = |alpha|^2 - |beta|^2. *)
Definition expval_Z (s : state) : R := Cmod2 (alpha s) - Cmod2 (beta s).

End Qubit.

(** ** Errors, output lines and the state of a run *)

Inductive exn : Type :=
| IndexError   (* a sequence indexed out of range *)
| WireError.   (* an operation on a wire the device does not have *)

Inductive result (A : Type) : Type :=
| Ok (a : A)
| Raise (e : exn).
Arguments Ok {A} a.
Arguments Raise {A} e.

(** One constructor per [print] statement of the script; the payload is the
    value that is formatted. *)
Inductive line : Type :=
| PrintCircuit (v : R)                       (* line 37 *)
| PrintGrad (g : list R)                     (* line 40 *)
| PrintGradPair (g : R * R)                  (* line 52 *)
| PrintInitCost (c : R)                      (* line 61 *)
| CostAfterStep (i : nat) (c : R)            (* line 76 *)
| OptimizedAngles (params : list R).         (* line 78 *)

(** What a run can observe and change: the state vector the device holds
    (left over from the last execution), the lines printed so far and a
    ghost counter of completed optimiser updates. *)
Record world : Type := mkWorld {
  dev_state : Qubit.state;
  stdout : list line;
  opt_updates : nat
}.

(** Computations of the script: they read and change the world and either
    return a value or raise.  A raised exception keeps the world as it was at
    the raise. *)
Definition M (A : Type) : Type := world -> result A * world.

Definition ret {A} (a : A) : M A := fun w => (Ok a, w).

Definition bind {A B} (m : M A) (k : A -> M B) : M B :=
  fun w =>
    match m w with
    | (Ok a, w') => k a w'
    | (Raise e, w') => (Raise e, w')
    end.

Definition raise {A} (e : exn) : M A := fun w => (Raise e, w).

Notation "x <- m ;; k" := (bind m (fun x => k))
  (at level 61, m at next level, right associativity).
Notation "m ;;; k" := (bind m (fun _ => k))
  (at level 61, right associativity).

Definition print (l : line) : M unit :=
  fun w => (Ok tt, mkWorld (dev_state w) (stdout w ++ [l]) (opt_updates w)).

Definition tick_update : M unit :=
  fun w => (Ok tt, mkWorld (dev_state w) (stdout w) (S (opt_updates w))).

Definition set_dev_state (s : Qubit.state) : M unit :=
  fun w => (Ok tt, mkWorld s (stdout w) (opt_updates w)).

Fixpoint mapM {A B} (f : A -> M B) (l : list A) : M (list B) :=
  match l with
  | [] => ret []
  | x :: l' => y <- f x ;; ys <- mapM f l' ;; ret (y :: ys)
  end.

(** [for i in r: acc = body(i, acc)] *)
Fixpoint for_range {A} (r : list nat) (body : nat -> A -> M A) (acc : A)
  : M A :=
  match r with
  | [] => ret acc
  | i :: r' => acc' <- body i acc ;; for_range r' body acc'
  end.

(** ** Quantum functions: operations queued on a tape *)

Inductive operation : Type :=
| RX (phi : R) (wires : nat)
| RY (phi : R) (wires : nat).

Inductive observable : Type :=
| PauliZ (wires : nat).

Inductive measurement : Type :=
| expval (o : observable).

(** A quantum function queues operations while it runs and returns a
    measurement; indexing its arguments can raise. *)
Definition Q (A : Type) : Type := list operation -> result (A * list operation).

Definition qret {A} (a : A) : Q A := fun q => Ok (a, q).

Definition qbind {A B} (m : Q A) (k : A -> Q B) : Q B :=
  fun q =>
    match m q with
    | Ok (a, q') => k a q'
    | Raise e => Raise e
    end.

Notation "x <~ m ;; k" := (qbind m (fun x => k))
  (at level 61, m at next level, right associativity).

Definition queue (o : operation) : Q unit := fun q => Ok (tt, q ++ [o]).

(** [params[i]] on a list or array: out of range raises IndexError. *)
Definition index (params : list R) (i : nat) : Q R :=
  fun q =>
    match nth_error params i with
    | Some x => Ok (x, q)
    | None => Raise IndexError
    end.

Record tape : Type := mkTape {
  operations : list operation;
  measured : measurement
}.

Definition record_tape (qfunc : Q measurement) : result tape :=
  match qfunc [] with
  | Ok (m, ops) => Ok (mkTape ops m)
  | Raise e => Raise e
  end.

(** ** The device: [qml.device("lightning.qubit", wires=1)] *)

Record device : Type := mkDevice { num_wires : nat }.

Definition dev : device := mkDevice 1.

Definition has_wire (d : device) (w : nat) : bool := (w <? num_wires d)%nat.

Definition apply_operation (d : device) (o : operation) (s : Qubit.state)
  : result Qubit.state :=
  match o with
  | RX phi w =>
      if has_wire d w then Ok (Qubit.apply_matrix (Qubit.RX_matrix phi) s)
      else Raise WireError
  | RY phi w =>
      if has_wire d w then Ok (Qubit.apply_matrix (Qubit.RY_matrix phi) s)
      else Raise WireError
  end.

Fixpoint apply_operations (d : device) (ops : list operation)
  (s : Qubit.state) : result Qubit.state :=
  match ops with
  | [] => Ok s
  | o :: ops' =>
      match apply_operation d o s with
      | Ok s' => apply_operations d ops' s'
      | Raise e => Raise e
      end
  end.

Definition measure (d : device) (m : measurement) (s : Qubit.state)
  : result R :=
  match m with
  | expval (PauliZ w) =>
      if has_wire d w then Ok (Qubit.expval_Z s) else Raise WireError
  end.

(** Executing a tape: the device is reset to |0>, the operations are applied
    in order, the measurement is evaluated analytically (no shots), and the
    evolved state stays in the device until the next execution resets it. *)
Definition execute (d : device) (t : tape) : M R :=
  set_dev_state Qubit.ket0 ;;;
  match apply_operations d (operations t) Qubit.ket0 with
  | Raise e => raise e
  | Ok s =>
      set_dev_state s ;;;
      match measure d (measured t) s with
      | Ok v => ret v
      | Raise e => raise e
      end
  end.

(** [@qml.qnode(dev)]: calling the node records the quantum function on a
    tape and executes the tape on the device. *)
Definition qnode (d : device) (qfunc : Q measurement) : M R :=
  match record_tape qfunc with
  | Raise e => raise e
  | Ok t => execute d t
  end.

(** ** The script *)

Definition circuit_qfunc (params : list R) : Q measurement :=
  p0 <~ index params 0 ;;
  _ <~ queue (RX p0 0) ;;
  p1 <~ index params 1 ;;
  _ <~ queue (RY p1 0) ;;
  qret (expval (PauliZ 0)).

Definition circuit (params : list R) : M R := qnode dev (circuit_qfunc params).

Definition circuit2_qfunc (phi1 phi2 : R) : Q measurement :=
  _ <~ queue (RX phi1 0) ;;
  _ <~ queue (RY phi2 0) ;;
  qret (expval (PauliZ 0)).

Definition circuit2 (phi1 phi2 : R) : M R :=
  qnode dev (circuit2_qfunc phi1 phi2).

(** *** Differentiation

    The derivative of a node built from rotation gates is obtained from
    evaluations of the node itself at parameters shifted by [PI/2]
    (parameter-shift rule); [partial_circuit_is_derivative] below shows that
    for [circuit] this is the analytic partial derivative.  The function
    is first evaluated at the point itself (forward pass). *)

Fixpoint shift (i : nat) (delta : R) (p : list R) : list R :=
  match p, i with
  | [], _ => []
  | x :: p', O => (x + delta) :: p'
  | x :: p', S j => x :: shift j delta p'
  end.

Definition partial_shift (f : list R -> M R) (p : list R) (i : nat) : M R :=
  fplus <- f (shift i (PI / 2) p) ;;
  fminus <- f (shift i (- (PI / 2)) p) ;;
  ret ((fplus - fminus) / 2).

(** [qml.grad(f, argnum=0)] for [f] of one sequence argument. *)
Definition grad (f : list R -> M R) (p : list R) : M (list R) :=
  f p ;;;
  mapM (partial_shift f p) (seq 0 (length p)).

(** [qml.grad(f, argnum=[0, 1])] for [f] of two scalar arguments. *)
Definition grad2 (f : R -> R -> M R) (x y : R) : M (R * R) :=
  f x y ;;;
  xplus <- f (x + PI / 2) y ;;
  xminus <- f (x + - (PI / 2)) y ;;
  yplus <- f x (y + PI / 2) ;;
  yminus <- f x (y + - (PI / 2)) ;;
  ret ((xplus - xminus) / 2, (yplus - yminus) / 2).

(** [dcircuit = qml.grad(circuit, argnum=0)] (line 39). *)
Definition dcircuit : list R -> M (list R) := grad circuit.

(** [dcircuit = qml.grad(circuit2, argnum=[0, 1])] (line 50); the script
    rebinds the name. *)
Definition dcircuit' : R -> R -> M (R * R) := grad2 circuit2.

Definition cost (x : list R) : M R := circuit x.

(** *** The optimiser: its only state is the step size *)

Record GradientDescentOptimizer : Type := mkOpt { stepsize : R }.

Fixpoint vsub (x y : list R) : list R :=
  match x, y with
  | a :: x', b :: y' => (a - b) :: vsub x' y'
  | _, _ => []
  end.

Definition vscale (c : R) (x : list R) : list R := map (Rmult c) x.

(** [opt.step(objective, x)] returns [x - stepsize * grad(objective)(x)]. *)
Definition step (opt : GradientDescentOptimizer) (objective : list R -> M R)
  (x : list R) : M (list R) :=
  g <- grad objective x ;;
  tick_update ;;;
  ret (vsub x (vscale (stepsize opt) g)).

Definition init_params : list R := [11 / 1000; 12 / 1000].

Definition opt : GradientDescentOptimizer := mkOpt (4 / 10).

Definition steps : nat := 100.

Definition loop_body (i : nat) (params : list R) : M (list R) :=
  params' <- step opt cost params ;;
  (if ((i + 1) mod 5 =? 0)%nat
   then c <- cost params' ;; print (CostAfterStep (i + 1) c)
   else ret tt) ;;;
  ret params'.

(** Lines 56-78, for any initial parameters. *)
Definition optimise (init : list R) : M unit :=
  c <- cost init ;;
  print (PrintInitCost c) ;;;
  params <- for_range (seq 0 steps) loop_body init ;;
  print (OptimizedAngles params).

(** The whole script, top to bottom. *)
Definition main : M unit :=
  v <- circuit [54 / 100; 12 / 100] ;;
  print (PrintCircuit v) ;;;
  g <- dcircuit [54 / 100; 12 / 100] ;;
  print (PrintGrad g) ;;;
  g2 <- dcircuit' (54 / 100) (12 / 100) ;;
  print (PrintGradPair g2) ;;;
  optimise init_params.

(** The world at the start of a run: the device as created, nothing
    printed, no update made. *)
Definition initial_world : world := mkWorld Qubit.ket0 [] 0.

(** ** Closed forms the properties refer to *)

(** The closed-form expectation value [cos(params[0]) * cos(params[1])]. *)
Definition closed_form (p : list R) : R := cos (nth 0 p 0) * cos (nth 1 p 0).

(** Its analytic gradient. *)
Definition closed_form_gradient (p : list R) : list R :=
  [- sin (nth 0 p 0) * cos (nth 1 p 0); - cos (nth 0 p 0) * sin (nth 1 p 0)].

(** One update of plain gradient descent on the closed form. *)
Definition descend (p : list R) : list R :=
  vsub p (vscale (stepsize opt) (closed_form_gradient p)).

(** The 1-based step numbers at which the loop over [seq i n] prints. *)
Definition printed_steps (i n : nat) : list nat :=
  filter (fun k => (k mod 5 =? 0)%nat) (seq (S i) n).

(** The progress lines of the loop over [seq i n] started at [p]. *)
Definition progress_lines (i n : nat) (p : list R) : list line :=
  map (fun k => CostAfterStep k (closed_form (Nat.iter (k - i) descend p)))
      (printed_steps i n).

(** The update in the coordinates [p0 + p1] and [p1 - p0]: each of them moves
    by [x + stepsize * sin x], independently of the other. *)
Definition phi (x : R) : R := x + 4 / 10 * sin x.

Definition angle_sum (p : list R) : R := nth 0 p 0 + nth 1 p 0.
Definition angle_diff (p : list R) : R := nth 1 p 0 - nth 0 p 0.

(** The Euclidean norm of a gradient. *)
Definition magnitude (g : list R) : R :=
  sqrt (fold_right (fun x acc => x * x + acc) 0 g).

(** ** The layout of the output *)

Inductive kind : Type :=
| KScalar | KGradient | KGradientPair | KInitialCost | KProgress | KFinal.

Definition kind_of (l : line) : kind :=
  match l with
  | PrintCircuit _ => KScalar
  | PrintGrad _ => KGradient
  | PrintGradPair _ => KGradientPair
  | PrintInitCost _ => KInitialCost
  | CostAfterStep _ _ => KProgress
  | OptimizedAngles _ => KFinal
  end.

(** The layout as the description of the interface words it: two scalar
    prints, two gradient prints, one gradient-pair print, one initial cost
    print, twenty progress lines and one final line. *)
Definition described_layout : list kind :=
  [KScalar; KScalar; KGradient; KGradient; KGradientPair; KInitialCost]
  ++ repeat KProgress 20 ++ [KFinal].

(** The layout the print statements of the script give, top to bottom. *)
Definition script_layout : list kind :=
  [KScalar; KGradient; KGradientPair; KInitialCost]
  ++ repeat KProgress 20 ++ [KFinal].

(** The lines a run prints, with their values in closed form. *)
Definition script_output : list line :=
  [PrintCircuit (closed_form [54 / 100; 12 / 100]);
   PrintGrad (closed_form_gradient [54 / 100; 12 / 100]);
   PrintGradPair (- sin (54 / 100) * cos (12 / 100),
                  - cos (54 / 100) * sin (12 / 100));
   PrintInitCost (closed_form init_params)]
  ++ progress_lines 0 steps init_params
  ++ [OptimizedAngles (Nat.iter steps descend init_params)].

(** The state the device holds after the two rotations. *)
Definition rotated (a b : R) : Qubit.state :=
  Qubit.apply_matrix (Qubit.RY_matrix b)
    (Qubit.apply_matrix (Qubit.RX_matrix a) Qubit.ket0).

(** The squared norm of a state vector. *)
Definition norm2 (s : Qubit.state) : R :=
  Qubit.Cmod2 (Qubit.alpha s) + Qubit.Cmod2 (Qubit.beta s).

(** * Properties *)

(** ** Running the monadic code *)

Lemma expval_rotated (a b : R) :
  Qubit.expval_Z (rotated a b) = cos a * cos b.
Proof.
  unfold rotated, Qubit.expval_Z, Qubit.apply_matrix, Qubit.RX_matrix,
    Qubit.RY_matrix, Qubit.ket0, Qubit.Cmod2, Qubit.Cplus, Qubit.Cmult,
    Qubit.Cre, Qubit.Cim; cbn.
  replace (cos a) with (cos (2 * (a / 2))) by (f_equal; field).
  replace (cos b) with (cos (2 * (b / 2))) by (f_equal; field).
  rewrite !cos_2a.
  generalize (sin2_cos2 (a / 2)) (sin2_cos2 (b / 2)); unfold Rsqr; intros Ha Hb.
  ring.
Qed.

Lemma circuit_run (a b : R) (rest : list R) (w : world) :
  circuit (a :: b :: rest) w =
  (Ok (cos a * cos b), mkWorld (rotated a b) (stdout w) (opt_updates w)).
Proof.
  unfold circuit, qnode, record_tape, circuit_qfunc, qbind, index, queue, qret.
  cbn. unfold execute, bind, set_dev_state; cbn.
  rewrite <- expval_rotated. reflexivity.
Qed.

Lemma bind_ok {A B} (m : M A) (k : A -> M B) (w w' : world) (a : A) :
  m w = (Ok a, w') -> bind m k w = k a w'.
Proof. intros H; unfold bind; rewrite H; reflexivity. Qed.

Lemma bind_raise {A B} (m : M A) (k : A -> M B) (w w' : world) (e : exn) :
  m w = (Raise e, w') -> bind m k w = (Raise e, w').
Proof. intros H; unfold bind; rewrite H; reflexivity. Qed.

Lemma ret_run {A} (a : A) (w : world) : ret a w = (Ok a, w).
Proof. reflexivity. Qed.

(** Run the first computation of a sequence with a known result. *)
Ltac run_bind lem := erewrite bind_ok by apply lem.
Ltac run_print := erewrite bind_ok by (unfold print, tick_update; reflexivity).

Lemma cos_shift_plus (x : R) : cos (x + PI / 2) = - sin x.
Proof. rewrite cos_plus, cos_PI2, sin_PI2; ring. Qed.

Lemma cos_shift_minus (x : R) : cos (x + - (PI / 2)) = sin x.
Proof. rewrite cos_plus, cos_neg, sin_neg, cos_PI2, sin_PI2; ring. Qed.

Lemma partial_shift_circuit_0 (a b : R) (w : world) :
  partial_shift circuit [a; b] 0 w =
  (Ok (- sin a * cos b),
   mkWorld (rotated (a + - (PI / 2)) b) (stdout w) (opt_updates w)).
Proof.
  unfold partial_shift; cbn [shift].
  run_bind circuit_run.
  run_bind circuit_run.
  rewrite ret_run; cbn [stdout opt_updates].
  rewrite cos_shift_plus, cos_shift_minus.
  do 2 f_equal. field.
Qed.

Lemma partial_shift_circuit_1 (a b : R) (w : world) :
  partial_shift circuit [a; b] 1 w =
  (Ok (- cos a * sin b),
   mkWorld (rotated a (b + - (PI / 2))) (stdout w) (opt_updates w)).
Proof.
  unfold partial_shift; cbn [shift].
  run_bind circuit_run.
  run_bind circuit_run.
  rewrite ret_run; cbn [stdout opt_updates].
  rewrite cos_shift_plus, cos_shift_minus.
  do 2 f_equal. field.
Qed.

Lemma grad_circuit_run (a b : R) (w : world) :
  grad circuit [a; b] w =
  (Ok [- sin a * cos b; - cos a * sin b],
   mkWorld (rotated a (b + - (PI / 2))) (stdout w) (opt_updates w)).
Proof.
  unfold grad.
  run_bind circuit_run.
  cbn [length seq mapM].
  run_bind partial_shift_circuit_0.
  erewrite bind_ok.
  2: { run_bind partial_shift_circuit_1.
       erewrite bind_ok by apply ret_run. apply ret_run. }
  apply ret_run.
Qed.

Lemma circuit2_run (a b : R) (w : world) :
  circuit2 a b w =
  (Ok (cos a * cos b), mkWorld (rotated a b) (stdout w) (opt_updates w)).
Proof.
  unfold circuit2, qnode, record_tape, circuit2_qfunc, qbind, queue, qret.
  cbn. unfold execute, bind, set_dev_state; cbn.
  rewrite <- expval_rotated. reflexivity.
Qed.

Lemma grad2_circuit2_run (a b : R) (w : world) :
  grad2 circuit2 a b w =
  (Ok (- sin a * cos b, - cos a * sin b),
   mkWorld (rotated a (b + - (PI / 2))) (stdout w) (opt_updates w)).
Proof.
  unfold grad2.
  do 5 (run_bind circuit2_run).
  rewrite ret_run; cbn [stdout opt_updates].
  rewrite !cos_shift_plus, !cos_shift_minus.
  do 2 f_equal. f_equal; field.
Qed.

Lemma cost_run (a b : R) (rest : list R) (w : world) :
  cost (a :: b :: rest) w =
  (Ok (cos a * cos b), mkWorld (rotated a b) (stdout w) (opt_updates w)).
Proof. apply circuit_run. Qed.

Lemma grad_cost_run (a b : R) (w : world) :
  grad cost [a; b] w =
  (Ok (closed_form_gradient [a; b]),
   mkWorld (rotated a (b + - (PI / 2))) (stdout w) (opt_updates w)).
Proof. apply grad_circuit_run. Qed.

Lemma step_run (a b : R) (w : world) :
  step opt cost [a; b] w =
  (Ok (descend [a; b]),
   mkWorld (rotated a (b + - (PI / 2))) (stdout w) (S (opt_updates w))).
Proof.
  unfold step.
  run_bind grad_cost_run.
  erewrite bind_ok by reflexivity.
  reflexivity.
Qed.

Lemma length2_inv {A} (p : list A) :
  length p = 2%nat -> exists a b, p = [a; b].
Proof.
  destruct p as [|a [|b [|c p]]]; cbn; try discriminate.
  intros _; eauto.
Qed.

Lemma descend_length (p : list R) : length p = 2%nat -> length (descend p) = 2%nat.
Proof.
  intros H; destruct (length2_inv p H) as (a & b & ->); reflexivity.
Qed.

Lemma iter_descend_length (n : nat) (p : list R) :
  length p = 2%nat -> length (Nat.iter n descend p) = 2%nat.
Proof.
  intros H; induction n; cbn; [assumption | now apply descend_length].
Qed.

Lemma closed_form_pair (a b : R) : closed_form [a; b] = cos a * cos b.
Proof. reflexivity. Qed.

(** One iteration of the loop body at a parameter vector of length 2. *)
Lemma loop_body_run (i : nat) (p : list R) (w : world) :
  length p = 2%nat ->
  exists d,
    loop_body i p w =
    (Ok (descend p),
     mkWorld d
       (stdout w ++
        (if (S i mod 5 =? 0)%nat
         then [CostAfterStep (S i) (closed_form (descend p))] else []))
       (S (opt_updates w))).
Proof.
  intros H; destruct (length2_inv p H) as (a & b & ->).
  unfold loop_body.
  run_bind step_run.
  rewrite Nat.add_1_r.
  destruct (length2_inv (descend [a; b]) (descend_length _ H)) as (a' & b' & E).
  destruct (S i mod 5 =? 0)%nat.
  - rewrite E.
    erewrite bind_ok by (erewrite bind_ok by apply cost_run; reflexivity).
    rewrite ret_run. cbn [stdout opt_updates dev_state]. eexists; reflexivity.
  - erewrite bind_ok by reflexivity. rewrite ret_run.
    cbn [stdout opt_updates dev_state]. rewrite app_nil_r. eexists; reflexivity.
Qed.

Lemma iter_shift {A} (f : A -> A) (n : nat) (x : A) :
  Nat.iter n f (f x) = f (Nat.iter n f x).
Proof. apply Nat.iter_swap. Qed.

Lemma progress_lines_step (i n : nat) (p : list R) :
  progress_lines i (S n) p =
  (if (S i mod 5 =? 0)%nat
   then [CostAfterStep (S i) (closed_form (descend p))] else [])
  ++ progress_lines (S i) n (descend p).
Proof.
  unfold progress_lines, printed_steps. cbn [seq filter].
  assert (E : map (fun k => CostAfterStep k (closed_form (Nat.iter (k - i) descend p)))
                (filter (fun k => (k mod 5 =? 0)%nat) (seq (S (S i)) n)) =
              map (fun k => CostAfterStep k
                              (closed_form (Nat.iter (k - S i) descend (descend p))))
                (filter (fun k => (k mod 5 =? 0)%nat) (seq (S (S i)) n))).
  { apply map_ext_in. intros k Hk. apply filter_In in Hk. destruct Hk as [Hk _].
    apply in_seq in Hk.
    replace (k - i)%nat with (S (k - S i)) by lia.
    rewrite iter_shift. reflexivity. }
  destruct (S i mod 5 =? 0)%nat.
  - cbn [map app]. rewrite E. replace (S i - i)%nat with 1%nat by lia. reflexivity.
  - cbn [app]. exact E.
Qed.

(** The loop over [seq i n]: it always runs all [n] iterations. *)
Lemma for_range_run (n i : nat) (p : list R) (w : world) :
  length p = 2%nat ->
  exists d,
    for_range (seq i n) loop_body p w =
    (Ok (Nat.iter n descend p),
     mkWorld d (stdout w ++ progress_lines i n p) (opt_updates w + n)).
Proof.
  revert i p w. induction n as [|n IH]; intros i p w H.
  - cbn. exists (dev_state w). unfold ret, progress_lines, printed_steps. cbn.
    rewrite app_nil_r, Nat.add_0_r. destruct w; reflexivity.
  - cbn [seq for_range].
    destruct (loop_body_run i p w H) as (d1 & E1).
    erewrite bind_ok by exact E1.
    destruct (IH (S i) (descend p)
                (mkWorld d1
                   (stdout w ++
                    (if (S i mod 5 =? 0)%nat
                     then [CostAfterStep (S i) (closed_form (descend p))] else []))
                   (S (opt_updates w)))
                (descend_length p H)) as (d2 & E2).
    rewrite E2. cbn [stdout opt_updates].
    exists d2. rewrite progress_lines_step, <- app_assoc, Nat.iter_succ_r.
    do 2 f_equal. lia.
Qed.

(** ** The gradient-descent map in decoupled coordinates *)

Lemma sin_le_x (x : R) : 0 <= x -> sin x <= x.
Proof.
  intros [H | <-]; [left; now apply sin_lt_x | rewrite sin_0; lra].
Qed.

Lemma sin_lb_poly (x : R) :
  sin_lb x = x - x ^ 3 / 6 + x ^ 5 / 120 - x ^ 7 / 5040.
Proof.
  unfold sin_lb, sin_approx, sin_term; cbn [sum_f_R0].
  replace (INR (fact (2 * 0 + 1))) with 1 by (cbn; lra).
  replace (INR (fact (2 * 1 + 1))) with 6 by (cbn; lra).
  replace (INR (fact (2 * 2 + 1))) with 120 by (cbn; lra).
  replace (INR (fact (2 * 3 + 1))) with 5040 by (cbn; lra).
  cbn [Nat.mul Nat.add pow]. field.
Qed.

Lemma sin_lower_unit (x : R) : 0 <= x <= 1 -> 5 / 6 * x <= sin x.
Proof.
  intros [H0 H1].
  assert (HPI : x <= PI) by (generalize PI2_1; lra).
  destruct (SIN x H0 HPI) as [Hlb _].
  apply Rle_trans with (2 := Hlb).
  rewrite sin_lb_poly. cbn [pow].
  assert (H2 : 0 <= x * x <= 1) by nra.
  assert (H3 : 0 <= x * (x * x) <= x) by nra.
  assert (H5 : 0 <= x * (x * x) * (x * x)) by nra.
  assert (H7 : x * (x * x) * (x * x) * (x * x) <= x * (x * x) * (x * x)) by nra.
  nra.
Qed.

Lemma sin_lower_mid (x : R) : 1 <= x <= PI - 1 -> 5 / 6 <= sin x.
Proof.
  intros [H1 H2].
  assert (Hpi := PI2_1).
  assert (Hone : 5 / 6 <= sin 1) by (generalize (sin_lower_unit 1); lra).
  destruct (Rle_dec x (PI / 2)) as [Hx | Hx].
  - apply Rle_trans with (1 := Hone). apply sin_incr_1; lra.
  - rewrite <- sin_PI_x. apply Rle_trans with (1 := Hone).
    apply sin_incr_1; lra.
Qed.

(** The interval [0, PI] is invariant and the orbit never moves down. *)
Lemma phi_range (x : R) : 0 <= x <= PI -> x <= phi x <= PI.
Proof.
  intros [H0 H1]. unfold phi. split.
  - generalize (sin_ge_0 x H0 H1); lra.
  - rewrite <- sin_PI_x.
    assert (Hu : 0 <= PI - x) by lra.
    generalize (sin_le_x (PI - x) Hu); lra.
Qed.

Lemma phi_grow (x : R) : 0 <= x <= 1 -> 4 / 3 * x <= phi x.
Proof. intros H. unfold phi. generalize (sin_lower_unit x H); lra. Qed.

Lemma phi_advance (x : R) : 1 <= x <= PI - 1 -> x + 1 / 3 <= phi x.
Proof. intros H. unfold phi. generalize (sin_lower_mid x H); lra. Qed.

Lemma phi_contract (x : R) :
  PI - 1 <= x <= PI -> PI - phi x <= 2 / 3 * (PI - x).
Proof.
  intros H. unfold phi. rewrite <- sin_PI_x.
  assert (Hu : 0 <= PI - x <= 1) by lra.
  generalize (sin_lower_unit (PI - x) Hu); lra.
Qed.

Lemma iter_phi_range (n : nat) (x : R) :
  0 <= x <= PI -> x <= Nat.iter n phi x <= PI.
Proof.
  intros H. induction n as [|n IH]; [cbn; lra|].
  rewrite Nat.iter_succ.
  assert (Hy : 0 <= Nat.iter n phi x <= PI) by lra.
  generalize (phi_range _ Hy); lra.
Qed.

(** Phase 1: geometric growth until the angle reaches 1. *)
Lemma iter_phi_grow (n : nat) (x : R) :
  0 <= x <= PI ->
  1 <= Nat.iter n phi x \/ (4 / 3) ^ n * x <= Nat.iter n phi x.
Proof.
  intros H. induction n as [|n IH].
  - right. cbn. lra.
  - rewrite Nat.iter_succ.
    assert (Hr := iter_phi_range n x H).
    assert (Hy : 0 <= Nat.iter n phi x <= PI) by lra.
    assert (Hp := phi_range _ Hy).
    destruct (Rle_dec 1 (Nat.iter n phi x)) as [Hge | Hlt].
    + left. lra.
    + destruct IH as [IH | IH]; [lra|].
      right. cbn [pow].
      assert (Hg : 4 / 3 * Nat.iter n phi x <= phi (Nat.iter n phi x))
        by (apply phi_grow; lra).
      lra.
Qed.

(** Phase 2: steps of at least 1/3 until the angle is within 1 of PI. *)
Lemma iter_phi_advance (n : nat) (x : R) :
  1 <= x <= PI ->
  PI - 1 <= Nat.iter n phi x \/ x + INR n / 3 <= Nat.iter n phi x.
Proof.
  intros H. induction n as [|n IH].
  - right. cbn. lra.
  - rewrite Nat.iter_succ.
    assert (H' : 0 <= x <= PI) by lra.
    assert (Hr := iter_phi_range n x H').
    assert (Hy : 0 <= Nat.iter n phi x <= PI) by lra.
    assert (Hp := phi_range _ Hy).
    destruct (Rle_dec (PI - 1) (Nat.iter n phi x)) as [Hge | Hlt].
    + left. lra.
    + destruct IH as [IH | IH]; [lra|].
      right. rewrite S_INR.
      assert (Hg : Nat.iter n phi x + 1 / 3 <= phi (Nat.iter n phi x))
        by (apply phi_advance; lra).
      lra.
Qed.

(** Phase 3: the distance to PI shrinks by 2/3 at every step. *)
Lemma iter_phi_contract (n : nat) (x : R) :
  PI - 1 <= x <= PI ->
  PI - Nat.iter n phi x <= (2 / 3) ^ n * (PI - x).
Proof.
  intros H. induction n as [|n IH].
  - cbn. lra.
  - rewrite Nat.iter_succ.
    assert (H' : 0 <= x <= PI) by (generalize PI2_1; lra).
    assert (Hr := iter_phi_range n x H').
    assert (Hg : PI - phi (Nat.iter n phi x) <= 2 / 3 * (PI - Nat.iter n phi x))
      by (apply phi_contract; lra).
    cbn [pow]. lra.
Qed.

Lemma pow_43_25 : 1000 <= (4 / 3) ^ 25.
Proof. cbn [pow]. lra. Qed.

Lemma pow_23_69 : (2 / 3) ^ 69 <= 1 / 10 ^ 12.
Proof. cbn [pow]. lra. Qed.

(** After 100 steps every angle that started at 1/1000 or above (and below
    PI) is within 10^-12 of PI. *)
Lemma iter_phi_100 (x : R) :
  1 / 1000 <= x <= PI ->
  0 <= PI - Nat.iter 100 phi x <= 1 / 10 ^ 12.
Proof.
  intros H.
  assert (Hpi := PI2_1). assert (Hpi4 := PI_4).
  assert (H0 : 0 <= x <= PI) by lra.
  split; [generalize (iter_phi_range 100 x H0); lra|].
  change 100%nat with (69 + (6 + 25))%nat.
  rewrite !Nat.iter_add.
  set (y1 := Nat.iter 25 phi x).
  assert (Hy1 : 1 <= y1 <= PI).
  { split; [|apply (iter_phi_range 25 x H0)].
    destruct (iter_phi_grow 25 x H0) as [Hg | Hg]; [exact Hg|].
    fold y1 in Hg. generalize pow_43_25; intros Hp. nra. }
  set (y2 := Nat.iter 6 phi y1).
  assert (Hy2 : PI - 1 <= y2 <= PI).
  { split; [|apply (iter_phi_range 6 y1); lra].
    destruct (iter_phi_advance 6 y1 Hy1) as [Hg | Hg]; [exact Hg|].
    fold y2 in Hg. cbn [INR] in Hg. lra. }
  apply Rle_trans with (1 := iter_phi_contract 69 y2 Hy2).
  generalize pow_23_69; intros Hp.
  assert (Hq : 0 <= (2 / 3) ^ 69) by (apply pow_le; lra).
  nra.
Qed.

(** ** Gradient descent in the coordinates sum and difference *)

Lemma descend_pair (a b : R) :
  descend [a; b] =
  [a - 4 / 10 * (- sin a * cos b); b - 4 / 10 * (- cos a * sin b)].
Proof. reflexivity. Qed.

Lemma angle_sum_descend (p : list R) :
  length p = 2%nat -> angle_sum (descend p) = phi (angle_sum p).
Proof.
  intros H; destruct (length2_inv p H) as (a & b & ->).
  rewrite descend_pair. unfold angle_sum, phi; cbn [nth].
  rewrite sin_plus. ring.
Qed.

Lemma angle_diff_descend (p : list R) :
  length p = 2%nat -> angle_diff (descend p) = phi (angle_diff p).
Proof.
  intros H; destruct (length2_inv p H) as (a & b & ->).
  rewrite descend_pair. unfold angle_diff, phi; cbn [nth].
  rewrite sin_minus. ring.
Qed.

Lemma angle_sum_iter (n : nat) (p : list R) :
  length p = 2%nat ->
  angle_sum (Nat.iter n descend p) = Nat.iter n phi (angle_sum p).
Proof.
  intros H. induction n as [|n IH]; [reflexivity|].
  rewrite !Nat.iter_succ, angle_sum_descend, IH;
    [reflexivity | now apply iter_descend_length].
Qed.

Lemma angle_diff_iter (n : nat) (p : list R) :
  length p = 2%nat ->
  angle_diff (Nat.iter n descend p) = Nat.iter n phi (angle_diff p).
Proof.
  intros H. induction n as [|n IH]; [reflexivity|].
  rewrite !Nat.iter_succ, angle_diff_descend, IH;
    [reflexivity | now apply iter_descend_length].
Qed.

Lemma closed_form_angles (p : list R) :
  closed_form p = (cos (angle_sum p) + cos (angle_diff p)) / 2.
Proof.
  unfold closed_form, angle_sum, angle_diff.
  rewrite cos_plus, cos_minus. field.
Qed.

Lemma closed_form_gradient_angles (p : list R) :
  closed_form_gradient p =
  [- ((sin (angle_sum p) - sin (angle_diff p)) / 2);
   - ((sin (angle_sum p) + sin (angle_diff p)) / 2)].
Proof.
  unfold closed_form_gradient, angle_sum, angle_diff.
  rewrite sin_plus, sin_minus. f_equal; [field | f_equal; field].
Qed.

(** The closed-form gradient is the analytic gradient of the closed form. *)
Lemma closed_form_partial_0 (a b : R) :
  derivable_pt_lim (fun x => closed_form [x; b]) a
    (nth 0 (closed_form_gradient [a; b]) 0).
Proof.
  cbn [nth closed_form_gradient]. unfold closed_form; cbn [nth].
  apply derivable_pt_lim_ext with (f := mult_real_fct (cos b) cos).
  - intros z. unfold mult_real_fct. ring.
  - replace (- sin a * cos b) with (cos b * - sin a) by ring.
    apply derivable_pt_lim_scal, derivable_pt_lim_cos.
Qed.

Lemma closed_form_partial_1 (a b : R) :
  derivable_pt_lim (fun y => closed_form [a; y]) b
    (nth 1 (closed_form_gradient [a; b]) 0).
Proof.
  cbn [nth closed_form_gradient]. unfold closed_form; cbn [nth].
  apply derivable_pt_lim_ext with (f := mult_real_fct (cos a) cos).
  - intros z. unfold mult_real_fct. ring.
  - replace (- cos a * sin b) with (cos a * - sin b) by ring.
    apply derivable_pt_lim_scal, derivable_pt_lim_cos.
Qed.

(** The parameter-shift evaluation of [circuit] is its analytic partial
    derivative. *)
Lemma partial_circuit_is_derivative (a b : R) (w : world) :
  exists g0 g1,
    fst (partial_shift circuit [a; b] 0 w) = Ok g0 /\
    fst (partial_shift circuit [a; b] 1 w) = Ok g1 /\
    derivable_pt_lim (fun x => closed_form [x; b]) a g0 /\
    derivable_pt_lim (fun y => closed_form [a; y]) b g1.
Proof.
  exists (- sin a * cos b), (- cos a * sin b).
  rewrite partial_shift_circuit_0, partial_shift_circuit_1.
  split; [reflexivity|]. split; [reflexivity|]. split.
  - apply closed_form_partial_0.
  - apply closed_form_partial_1.
Qed.

(** ** Failure on short parameter vectors *)

Lemma circuit_short (p : list R) (w : world) :
  (length p < 2)%nat -> circuit p w = (Raise IndexError, w).
Proof.
  intros H. destruct p as [|a [|b p]]; cbn in H; try lia; reflexivity.
Qed.

Lemma circuit_value_stateless (p : list R) (w1 w2 : world) :
  fst (circuit p w1) = fst (circuit p w2).
Proof.
  destruct p as [|a [|b p]];
    [reflexivity | reflexivity | rewrite !circuit_run; reflexivity].
Qed.

(** ** The whole run *)

Lemma printed_steps_100 : printed_steps 0 100 = map (fun k => 5 * k)%nat (seq 1 20).
Proof. reflexivity. Qed.

Lemma optimise_run (p : list R) (w : world) :
  length p = 2%nat ->
  exists d,
    optimise p w =
    (Ok tt,
     mkWorld d
       (stdout w ++ [PrintInitCost (closed_form p)] ++
        progress_lines 0 steps p ++
        [OptimizedAngles (Nat.iter steps descend p)])
       (opt_updates w + steps)).
Proof.
  intros H. destruct (length2_inv p H) as (a & b & ->).
  unfold optimise.
  run_bind cost_run.
  erewrite bind_ok by reflexivity.
  cbn [dev_state stdout opt_updates].
  match goal with
  | |- context [bind (for_range _ _ _) _ ?w0] =>
      destruct (for_range_run steps 0 [a; b] w0 H) as (d & Hd)
  end.
  erewrite bind_ok by exact Hd.
  exists d. unfold print; cbn [dev_state stdout opt_updates].
  rewrite closed_form_pair, <- !app_assoc. reflexivity.
Qed.

Lemma main_run (w : world) :
  exists d,
    main w = (Ok tt, mkWorld d (stdout w ++ script_output) (opt_updates w + steps)).
Proof.
  unfold main, dcircuit, dcircuit'.
  run_bind circuit_run.
  run_print.
  run_bind grad_circuit_run.
  run_print.
  run_bind grad2_circuit2_run.
  run_print.
  cbn [dev_state stdout opt_updates].
  match goal with
  | |- context [optimise _ ?w0] =>
      destruct (optimise_run init_params w0 eq_refl) as (d & Hd)
  end.
  exists d. etransitivity; [exact Hd|].
  cbn [stdout opt_updates].
  unfold script_output.
  rewrite <- !app_assoc. cbn [app].
  reflexivity.
Qed.

(** * The claims *)

(** C1: for every parameter vector of length 2, [circuit] queues an RX
    rotation by [params[0]] and then an RY rotation by [params[1]] on the
    single wire, returns the expectation value of PauliZ in the state these
    rotations produce from |0>, and this value is
    [cos(params[0]) * cos(params[1])]. *)
Theorem circuit_closed_form (params : list R) (w : world) :
  length params = 2%nat ->
  num_wires dev = 1%nat /\
  record_tape (circuit_qfunc params) =
    Ok (mkTape [RX (nth 0 params 0) 0; RY (nth 1 params 0) 0]
               (expval (PauliZ 0))) /\
  exists w',
    circuit params w = (Ok (Qubit.expval_Z (dev_state w')), w') /\
    dev_state w' =
      Qubit.apply_matrix (Qubit.RY_matrix (nth 1 params 0))
        (Qubit.apply_matrix (Qubit.RX_matrix (nth 0 params 0)) Qubit.ket0) /\
    Qubit.expval_Z (dev_state w') = cos (nth 0 params 0) * cos (nth 1 params 0).
Proof.
  intros H. destruct (length2_inv params H) as (a & b & ->).
  split; [reflexivity|]. split; [reflexivity|].
  exists (mkWorld (rotated a b) (stdout w) (opt_updates w)).
  cbn [nth dev_state]. rewrite circuit_run, expval_rotated.
  repeat split.
Qed.

Lemma circuit_closed_form_witness :
  length [54 / 100; 12 / 100] = 2%nat /\
  fst (circuit [54 / 100; 12 / 100] initial_world) =
  Ok (cos (54 / 100) * cos (12 / 100)).
Proof.
  split; [reflexivity|].
  destruct (circuit_closed_form [54 / 100; 12 / 100] initial_world eq_refl)
    as (_ & _ & w' & E & _ & V).
  rewrite E. cbn [fst nth] in *. rewrite V. reflexivity.
Defined.

(** C2: the gradient [dcircuit] returns at [0.54, 0.12] is within 1e-6 of
    [(-sin(0.54) * cos(0.12), -cos(0.54) * sin(0.12))], which is the analytic
    gradient of [cos(params[0]) * cos(params[1])] at that point. *)
Theorem dcircuit_matches_analytic_gradient (w : world) :
  exists g0 g1 w',
    dcircuit [54 / 100; 12 / 100] w = (Ok [g0; g1], w') /\
    derivable_pt_lim (fun x => closed_form [x; 12 / 100]) (54 / 100)
      (- sin (54 / 100) * cos (12 / 100)) /\
    derivable_pt_lim (fun y => closed_form [54 / 100; y]) (12 / 100)
      (- cos (54 / 100) * sin (12 / 100)) /\
    Rabs (g0 - - sin (54 / 100) * cos (12 / 100)) <= 1 / 10 ^ 6 /\
    Rabs (g1 - - cos (54 / 100) * sin (12 / 100)) <= 1 / 10 ^ 6.
Proof.
  exists (- sin (54 / 100) * cos (12 / 100)), (- cos (54 / 100) * sin (12 / 100)).
  eexists. split; [apply grad_circuit_run|].
  split; [apply (closed_form_partial_0 (54 / 100) (12 / 100))|].
  split; [apply (closed_form_partial_1 (54 / 100) (12 / 100))|].
  assert (Htol : 0 <= 1 / 10 ^ 6) by (cbn [pow]; lra).
  split.
  - replace (- sin (54 / 100) * cos (12 / 100) - - sin (54 / 100) * cos (12 / 100))
      with 0 by ring.
    rewrite Rabs_R0; exact Htol.
  - replace (- cos (54 / 100) * sin (12 / 100) - - cos (54 / 100) * sin (12 / 100))
      with 0 by ring.
    rewrite Rabs_R0; exact Htol.
Qed.

Lemma progress_lines_100 (p : list R) :
  progress_lines 0 100 p =
  map (fun j => CostAfterStep (5 * j)
                  (closed_form (Nat.iter (5 * j) descend p)))
      (seq 1 20).
Proof.
  unfold progress_lines. rewrite printed_steps_100, map_map.
  apply map_ext. intros j. rewrite Nat.sub_0_r. reflexivity.
Qed.

(** C3: the loop makes exactly 100 parameter updates, prints a progress line
    exactly at the 1-based steps that are multiples of 5 (twenty lines), and
    runs all its iterations whatever the parameters are: there is no
    convergence check and no early exit. *)
Theorem loop_runs_all_steps (p : list R) (w : world) :
  length p = 2%nat ->
  steps = 100%nat /\
  exists w' lines,
    for_range (seq 0 steps) loop_body p w =
      (Ok (Nat.iter 100 descend p), w') /\
    opt_updates w' = (opt_updates w + 100)%nat /\
    stdout w' = stdout w ++ lines /\
    lines = map (fun j => CostAfterStep (5 * j)
                            (closed_form (Nat.iter (5 * j) descend p)))
                (seq 1 20) /\
    length lines = 20%nat /\
    (forall k, (exists c, In (CostAfterStep k c) lines) <->
               (1 <= k <= 100 /\ k mod 5 = 0)%nat).
Proof.
  intros H. split; [reflexivity|].
  destruct (for_range_run 100 0 p w H) as (d & E).
  eexists. exists (progress_lines 0 100 p).
  split; [exact E|]. cbn [opt_updates stdout].
  split; [reflexivity|]. split; [reflexivity|].
  rewrite progress_lines_100.
  split; [reflexivity|]. split; [rewrite length_map, length_seq; reflexivity|].
  intros k. split.
  - intros (c & Hin). apply in_map_iff in Hin. destruct Hin as (j & Hj & Hs).
    apply in_seq in Hs.
    assert (Hk : k = (j * 5)%nat) by (injection Hj; lia).
    split; [lia|]. rewrite Hk. apply Nat.Div0.mod_mul.
  - intros (Hk & Hm).
    exists (closed_form (Nat.iter k descend p)).
    apply in_map_iff. exists (k / 5)%nat.
    assert (Hd : k = (5 * (k / 5))%nat).
    { rewrite (Nat.div_mod_eq k 5) at 1. lia. }
    split.
    + rewrite <- Hd. reflexivity.
    + apply in_seq. lia.
Qed.

Lemma loop_runs_all_steps_witness :
  length init_params = 2%nat /\
  exists w',
    for_range (seq 0 steps) loop_body init_params initial_world =
      (Ok (Nat.iter 100 descend init_params), w') /\
    opt_updates w' = 100%nat /\
    length (stdout w') = 20%nat.
Proof.
  split; [reflexivity|].
  destruct (loop_runs_all_steps init_params initial_world eq_refl)
    as (_ & w' & lines & E & Hu & Hs & _ & Hl & _).
  exists w'. split; [exact E|]. split; [exact Hu|].
  rewrite Hs. exact Hl.
Defined.

Lemma step_any_stepsize (eta a b : R) (w : world) :
  step (mkOpt eta) cost [a; b] w =
  (Ok [a - eta * (- sin a * cos b); b - eta * (- cos a * sin b)],
   mkWorld (rotated a (b + - (PI / 2))) (stdout w) (S (opt_updates w))).
Proof.
  unfold step. run_bind grad_cost_run. run_print. reflexivity.
Qed.

(** C4: every iteration replaces the parameters by
    [params - stepsize * gradient(cost, params)] with [stepsize = 0.4] and
    [cost = circuit]: component by component the new value is the old one
    minus 0.4 times the matching component of the gradient of the cost.  The
    new parameters depend on the old parameters only, not on the iteration
    number nor on anything left from earlier iterations, and the step size is
    all the optimiser contributes: with another step size the same rule holds
    with that factor. *)
Theorem step_is_plain_gradient_descent (i : nat) (p : list R) (w : world) :
  length p = 2%nat ->
  stepsize opt = 4 / 10 /\
  (forall x w0, cost x w0 = circuit x w0) /\
  (exists g0 g1 w1 w2,
     grad cost p w = (Ok [g0; g1], w1) /\
     g0 = - sin (nth 0 p 0) * cos (nth 1 p 0) /\
     g1 = - cos (nth 0 p 0) * sin (nth 1 p 0) /\
     derivable_pt_lim (fun x => closed_form [x; nth 1 p 0]) (nth 0 p 0) g0 /\
     derivable_pt_lim (fun y => closed_form [nth 0 p 0; y]) (nth 1 p 0) g1 /\
     loop_body i p w =
       (Ok [nth 0 p 0 - 4 / 10 * g0; nth 1 p 0 - 4 / 10 * g1], w2) /\
     opt_updates w2 = S (opt_updates w) /\
     (forall eta,
        fst (step (mkOpt eta) cost p w) =
        Ok [nth 0 p 0 - eta * g0; nth 1 p 0 - eta * g1])) /\
  (forall i' w', fst (loop_body i' p w') = fst (loop_body i p w)).
Proof.
  intros H. split; [reflexivity|]. split; [reflexivity|].
  destruct (loop_body_run i p w H) as (d & E).
  split.
  - destruct (length2_inv p H) as (a & b & ->).
    rewrite descend_pair in E. cbn [nth].
    exists (- sin a * cos b), (- cos a * sin b).
    eexists. eexists.
    split; [apply grad_cost_run|].
    split; [reflexivity|]. split; [reflexivity|].
    split; [apply (closed_form_partial_0 a b)|].
    split; [apply (closed_form_partial_1 a b)|].
    split; [exact E|]. split; [reflexivity|].
    intros eta. now rewrite step_any_stepsize.
  - intros i' w'. destruct (loop_body_run i' p w' H) as (d' & E').
    rewrite E, E'. reflexivity.
Qed.

Lemma step_is_plain_gradient_descent_witness :
  length init_params = 2%nat /\
  fst (loop_body 0 init_params initial_world) =
  Ok [11 / 1000 - 4 / 10 * (- sin (11 / 1000) * cos (12 / 1000));
      12 / 1000 - 4 / 10 * (- cos (11 / 1000) * sin (12 / 1000))].
Proof.
  split; [reflexivity|].
  destruct (step_is_plain_gradient_descent 0 init_params initial_world eq_refl)
    as (_ & _ & (g0 & g1 & w1 & w2 & _ & H0 & H1 & _ & _ & E & _) & _).
  rewrite E, H0, H1. reflexivity.
Defined.

(** ** Convergence from the initial parameters *)

Lemma init_angles :
  1 / 1000 <= angle_sum init_params <= 1 /\
  1 / 1000 <= angle_diff init_params <= 1.
Proof. unfold angle_sum, angle_diff, init_params; cbn [nth]. lra. Qed.

(** After 100 updates an angle that started in [1/1000, 1] has moved up and
    is within 10^-12 of PI. *)
Lemma angle_after_100 (x : R) :
  1 / 1000 <= x <= 1 ->
  x < Nat.iter 100 phi x <= PI /\ PI - Nat.iter 100 phi x <= 1 / 10 ^ 12.
Proof.
  intros H. assert (Hpi := PI2_1).
  assert (Hx : 1 / 1000 <= x <= PI) by lra.
  destruct (iter_phi_100 x Hx) as [H0 H1].
  assert (Hsmall : 1 / 10 ^ 12 <= 1 / 1000) by (cbn [pow]; lra).
  repeat split; lra.
Qed.

Lemma sin_near_PI (x eps : R) :
  x <= PI -> PI - x <= eps -> eps <= 1 -> 0 <= sin x <= eps.
Proof.
  intros H1 H2 H3. rewrite <- sin_PI_x.
  assert (Hpi := PI2_1).
  split.
  - apply sin_ge_0; lra.
  - apply Rle_trans with (PI - x); [apply sin_le_x; lra | exact H2].
Qed.

(** C5: after the 100 updates from [0.011, 0.012] with step size 0.4 the
    cost is strictly below the initial cost, and the gradient of the cost at
    the final parameters has magnitude below 1e-6. *)
Theorem descent_reaches_stationary_point (w : world) :
  exists c0 final c100 g w1 w2 w3 w4,
    cost init_params w = (Ok c0, w1) /\
    for_range (seq 0 steps) loop_body init_params w1 = (Ok final, w2) /\
    opt_updates w2 = (opt_updates w1 + 100)%nat /\
    cost final w2 = (Ok c100, w3) /\
    grad cost final w3 = (Ok g, w4) /\
    c100 < c0 /\
    magnitude g < 1 / 10 ^ 6.
Proof.
  set (F := Nat.iter 100 descend init_params).
  assert (HF : length F = 2%nat) by (apply iter_descend_length; reflexivity).
  destruct (length2_inv F HF) as (a & b & EF).
  exists (closed_form init_params), F, (closed_form F), (closed_form_gradient F).
  assert (E0 := cost_run (11 / 1000) (12 / 1000) [] w).
  destruct (for_range_run 100 0 init_params
              (mkWorld (rotated (11 / 1000) (12 / 1000)) (stdout w) (opt_updates w))
              eq_refl) as (d & Eloop).
  fold F in Eloop.
  do 4 eexists.
  split; [exact E0|]. split; [exact Eloop|].
  cbn [opt_updates].
  split; [reflexivity|].
  split; [rewrite EF; apply cost_run|].
  split; [rewrite EF; apply grad_cost_run|].
  (* the angles after 100 updates *)
  destruct init_angles as [Hs0 Hd0].
  destruct (angle_after_100 _ Hs0) as [Hs Hse].
  destruct (angle_after_100 _ Hd0) as [Hd Hde].
  rewrite <- (angle_sum_iter 100 init_params eq_refl) in Hs, Hse.
  rewrite <- (angle_diff_iter 100 init_params eq_refl) in Hd, Hde.
  fold F in Hs, Hse, Hd, Hde.
  split.
  - rewrite !closed_form_angles.
    assert (cos (angle_sum F) < cos (angle_sum init_params))
      by (apply cos_decreasing_1; lra).
    assert (cos (angle_diff F) < cos (angle_diff init_params))
      by (apply cos_decreasing_1; lra).
    lra.
  - rewrite closed_form_gradient_angles. unfold magnitude. cbn [fold_right].
    assert (Heps : 0 < 1 / 10 ^ 12 <= 1) by (cbn [pow]; lra).
    destruct (sin_near_PI (angle_sum F) (1 / 10 ^ 12)) as [Hs1 Hs2];
      [lra | lra | lra |].
    destruct (sin_near_PI (angle_diff F) (1 / 10 ^ 12)) as [Hd1 Hd2];
      [lra | lra | lra |].
    set (ss := sin (angle_sum F)) in *. set (sd := sin (angle_diff F)) in *.
    replace (1 / 10 ^ 6) with (sqrt ((1 / 10 ^ 6) * (1 / 10 ^ 6)))
      by (apply sqrt_square; cbn [pow]; lra).
    apply sqrt_lt_1_alt.
    assert (He : 1 / 10 ^ 12 = 1 / 10 ^ 6 * (1 / 10 ^ 6)) by (cbn [pow]; lra).
    assert (H6 : 0 < 1 / 10 ^ 6 <= 1 / 1000) by (cbn [pow]; lra).
    set (t := 1 / 10 ^ 6) in *. set (e := 1 / 10 ^ 12) in *.
    split; [nra|].
    assert (Hss : ss * ss <= e * e) by nra.
    assert (Hdd : sd * sd <= e * e) by nra.
    assert (Hq : e <= 1 / 4) by nra.
    assert (Hee : e * e <= e * (1 / 4)) by nra.
    replace (- ((ss - sd) / 2) * - ((ss - sd) / 2) +
             (- ((ss + sd) / 2) * - ((ss + sd) / 2) + 0))
      with ((ss * ss + sd * sd) / 2) by field.
    rewrite <- He. lra.
Qed.

(** ** The layout of the output *)

Lemma layout_of_progress (i n : nat) (p : list R) :
  map kind_of (progress_lines i n p) =
  repeat KProgress (length (printed_steps i n)).
Proof.
  unfold progress_lines. rewrite map_map. cbn [kind_of].
  induction (printed_steps i n) as [|k l IH]; cbn [map length repeat];
    [reflexivity | now rewrite IH].
Qed.

Lemma layout_of_output : map kind_of script_output = script_layout.
Proof.
  unfold script_output, script_layout.
  rewrite !map_app, layout_of_progress.
  change steps with 100%nat. rewrite printed_steps_100, length_map, length_seq.
  reflexivity.
Qed.

(** C6, as described: the printed lines are not, in order, two scalar
    prints, two gradient prints, one gradient-pair print, one initial cost
    print, twenty progress lines and a final line; the run prints 25 lines
    and the description counts 27. *)
Lemma output_layout_not_as_described :
  map kind_of (stdout (snd (main initial_world))) <> described_layout /\
  length (stdout (snd (main initial_world))) = 25%nat /\
  length described_layout = 27%nat.
Proof.
  destruct (main_run initial_world) as (d & E).
  rewrite E. cbn [snd stdout initial_world app].
  split; [|split].
  - rewrite layout_of_output. unfold script_layout, described_layout.
    cbn [app]. discriminate.
  - rewrite <- (length_map kind_of), layout_of_output. reflexivity.
  - reflexivity.
Qed.

(** C6, amended: a run succeeds and its output is, in order, one scalar
    print, one gradient print, one gradient-pair print, one initial cost
    print, twenty "Cost after step" lines and one final "Optimized rotation
    angles" line; printing is the only output effect of the script. *)
Theorem output_layout :
  fst (main initial_world) = Ok tt /\
  stdout (snd (main initial_world)) = script_output /\
  map kind_of (stdout (snd (main initial_world))) =
    [KScalar; KGradient; KGradientPair; KInitialCost]
    ++ repeat KProgress 20 ++ [KFinal].
Proof.
  destruct (main_run initial_world) as (d & E).
  rewrite E. cbn [fst snd stdout initial_world app].
  split; [reflexivity|]. split; [reflexivity|].
  apply layout_of_output.
Qed.

(** C7: the value [circuit] returns depends on its parameter vector only
    (not on what earlier executions left in the device, so a repeated call
    returns the same value), and any two runs of the script print the same
    lines and end the same way. *)
Theorem run_is_deterministic :
  (forall p w1 w2, fst (circuit p w1) = fst (circuit p w2)) /\
  (forall p w, fst (circuit p (snd (circuit p w))) = fst (circuit p w)) /\
  (forall w1 w2,
     fst (main w1) = fst (main w2) /\
     exists out,
       stdout (snd (main w1)) = stdout w1 ++ out /\
       stdout (snd (main w2)) = stdout w2 ++ out).
Proof.
  split; [exact circuit_value_stateless|].
  split; [intros p w; apply circuit_value_stateless|].
  intros w1 w2.
  destruct (main_run w1) as (d1 & E1). destruct (main_run w2) as (d2 & E2).
  rewrite E1, E2. cbn [fst snd stdout].
  split; [reflexivity|]. exists script_output. split; reflexivity.
Qed.

(** C8: [circuit2(phi1, phi2)] and [circuit([phi1, phi2])] record the same
    tape and return the same value (and leave the same state behind). *)
Theorem circuit2_equiv_circuit (phi1 phi2 : R) (w : world) :
  record_tape (circuit2_qfunc phi1 phi2) =
    record_tape (circuit_qfunc [phi1; phi2]) /\
  circuit2 phi1 phi2 w = circuit [phi1; phi2] w.
Proof.
  split; [reflexivity|].
  rewrite circuit2_run, circuit_run. reflexivity.
Qed.

(** C9: with fewer than two components [circuit] and [cost] raise
    IndexError; nothing catches it: sequencing passes every raised exception
    on, so the optimiser step and the whole optimisation part of the script
    stop with that exception, before anything is printed or updated. *)
Theorem short_params_raise (p : list R) (w : world) :
  (length p < 2)%nat ->
  circuit p w = (Raise IndexError, w) /\
  cost p w = (Raise IndexError, w) /\
  step opt cost p w = (Raise IndexError, w) /\
  optimise p w = (Raise IndexError, w) /\
  (forall (A B : Type) (m : M A) (k : A -> M B) (w0 w1 : world) (e : exn),
     m w0 = (Raise e, w1) -> bind m k w0 = (Raise e, w1)).
Proof.
  intros H.
  assert (E : circuit p w = (Raise IndexError, w)) by now apply circuit_short.
  split; [exact E|]. split; [exact E|].
  split.
  - unfold step, grad. apply bind_raise. apply bind_raise. exact E.
  - split.
    + unfold optimise. apply bind_raise. exact E.
    + intros A B m k w0 w1 e. apply bind_raise.
Qed.

Lemma short_params_raise_witness :
  (length [11 / 1000] < 2)%nat /\
  optimise [11 / 1000] initial_world = (Raise IndexError, initial_world).
Proof.
  assert (H : (length [11 / 1000] < 2)%nat) by (cbn; lia).
  split; [exact H|].
  destruct (short_params_raise [11 / 1000] initial_world H)
    as (_ & _ & _ & E & _).
  exact E.
Defined.

(** C10: [circuit] reads components 0 and 1 only: two parameter vectors of
    length at least 2 that agree there give the same result, and the call
    succeeds whatever follows them. *)
Theorem circuit_reads_two_components (p q : list R) (w : world) :
  (2 <= length p)%nat -> (2 <= length q)%nat ->
  nth 0 p 0 = nth 0 q 0 -> nth 1 p 0 = nth 1 q 0 ->
  circuit p w = circuit q w /\
  exists v w', circuit p w = (Ok v, w').
Proof.
  intros Hp Hq H0 H1.
  destruct p as [|a [|b p]]; cbn in Hp; try lia.
  destruct q as [|a' [|b' q]]; cbn in Hq; try lia.
  cbn [nth] in H0, H1. subst a' b'.
  rewrite !circuit_run. split; [reflexivity|]. eauto.
Qed.

Lemma circuit_reads_two_components_witness :
  (2 <= length [1; 2; 3])%nat /\ (2 <= length [1; 2])%nat /\
  circuit [1; 2; 3] initial_world = circuit [1; 2] initial_world.
Proof.
  assert (Hp : (2 <= length [1; 2; 3])%nat) by (cbn; lia).
  assert (Hq : (2 <= length [1; 2])%nat) by (cbn; lia).
  split; [exact Hp|]. split; [exact Hq|].
  destruct (circuit_reads_two_components [1; 2; 3] [1; 2] initial_world
              Hp Hq eq_refl eq_refl) as (E & _).
  exact E.
Defined.

(** * Further properties of the script *)

(** ** One update never increases the cost *)







(** ** Parameter vectors with trailing components *)

Lemma shift_tail (i : nat) (delta a b : R) (rest : list R) :
  (2 <= i)%nat ->
  shift i delta (a :: b :: rest) = a :: b :: shift (i - 2) delta rest.
Proof.
  intros H. destruct i as [|[|j]]; try lia.
  cbn [shift]. replace (S (S j) - 2)%nat with j by lia. reflexivity.
Qed.

Lemma partial_shift_head_0 (a b : R) (rest : list R) (w : world) :
  partial_shift circuit (a :: b :: rest) 0 w =
  (Ok (- sin a * cos b),
   mkWorld (rotated (a + - (PI / 2)) b) (stdout w) (opt_updates w)).
Proof.
  unfold partial_shift; cbn [shift].
  run_bind circuit_run. run_bind circuit_run.
  rewrite ret_run; cbn [stdout opt_updates].
  rewrite cos_shift_plus, cos_shift_minus.
  do 2 f_equal. field.
Qed.

Lemma partial_shift_head_1 (a b : R) (rest : list R) (w : world) :
  partial_shift circuit (a :: b :: rest) 1 w =
  (Ok (- cos a * sin b),
   mkWorld (rotated a (b + - (PI / 2))) (stdout w) (opt_updates w)).
Proof.
  unfold partial_shift; cbn [shift].
  run_bind circuit_run. run_bind circuit_run.
  rewrite ret_run; cbn [stdout opt_updates].
  rewrite cos_shift_plus, cos_shift_minus.
  do 2 f_equal. field.
Qed.

Lemma partial_shift_tail (i : nat) (a b : R) (rest : list R) (w : world) :
  (2 <= i)%nat ->
  partial_shift circuit (a :: b :: rest) i w =
  (Ok 0, mkWorld (rotated a b) (stdout w) (opt_updates w)).
Proof.
  intros H. unfold partial_shift. rewrite !shift_tail by assumption.
  run_bind circuit_run. run_bind circuit_run.
  rewrite ret_run; cbn [stdout opt_updates].
  do 2 f_equal. field.
Qed.

Lemma mapM_partial_shift_tail (l : list nat) (a b : R) (rest : list R)
  (w : world) :
  Forall (fun i => (2 <= i)%nat) l ->
  exists d,
    mapM (partial_shift circuit (a :: b :: rest)) l w =
    (Ok (repeat 0 (length l)), mkWorld d (stdout w) (opt_updates w)).
Proof.
  intros H. revert w. induction H as [|i l Hi Hl IH]; intros w.
  - exists (dev_state w). destruct w; reflexivity.
  - cbn [mapM length repeat].
    erewrite bind_ok by (apply partial_shift_tail; exact Hi).
    destruct (IH (mkWorld (rotated a b) (stdout w) (opt_updates w))) as (d & E).
    erewrite bind_ok by exact E.
    exists d. reflexivity.
Qed.

Lemma grad_circuit_general (a b : R) (rest : list R) (w : world) :
  exists d,
    grad circuit (a :: b :: rest) w =
    (Ok (closed_form_gradient [a; b] ++ repeat 0 (length rest)),
     mkWorld d (stdout w) (opt_updates w)).
Proof.
  unfold grad. run_bind circuit_run.
  cbn [length seq mapM].
  run_bind partial_shift_head_0.
  assert (Hall : Forall (fun i => (2 <= i)%nat) (seq 2 (length rest))).
  { apply Forall_forall. intros i Hi. apply in_seq in Hi. lia. }
  match goal with
  | |- context [bind (bind _ _) _ ?w0] =>
      destruct (mapM_partial_shift_tail _ a b rest
                  (mkWorld (rotated a (b + - (PI / 2))) (stdout w0) (opt_updates w0))
                  Hall) as (d & E)
  end.
  cbn [stdout opt_updates] in E.
  exists d.
  erewrite bind_ok.
  2: { run_bind partial_shift_head_1.
       erewrite bind_ok by exact E. apply ret_run. }
  rewrite ret_run, length_seq. reflexivity.
Qed.

Lemma vsub_zero_tail (c : R) (rest : list R) :
  vsub rest (vscale c (repeat 0 (length rest))) = rest.
Proof.
  induction rest as [|x rest IH]; [reflexivity|].
  cbn [length repeat vscale map vsub]. fold (vscale c (repeat 0 (length rest))).
  rewrite IH. f_equal. ring.
Qed.

Lemma step_general (a b : R) (rest : list R) (w : world) :
  exists d,
    step opt cost (a :: b :: rest) w =
    (Ok (descend [a; b] ++ rest),
     mkWorld d (stdout w) (S (opt_updates w))).
Proof.
  destruct (grad_circuit_general a b rest w) as (d & E).
  exists d. unfold step.
  erewrite bind_ok by exact E.
  run_print. rewrite ret_run. cbn [dev_state stdout opt_updates].
  do 2 f_equal.
  cbn [closed_form_gradient nth app vscale map vsub].
  fold (vscale (stepsize opt) (repeat 0 (length rest))).
  rewrite vsub_zero_tail. reflexivity.
Qed.

Lemma loop_body_general (i : nat) (a b : R) (rest : list R) (w : world) :
  exists d,
    loop_body i (a :: b :: rest) w =
    (Ok (descend [a; b] ++ rest),
     mkWorld d
       (stdout w ++
        (if (S i mod 5 =? 0)%nat
         then [CostAfterStep (S i) (closed_form (descend [a; b]))] else []))
       (S (opt_updates w))).
Proof.
  destruct (step_general a b rest w) as (d & E).
  unfold loop_body. erewrite bind_ok by exact E.
  rewrite Nat.add_1_r.
  destruct (length2_inv (descend [a; b]) (descend_length [a; b] eq_refl))
    as (a' & b' & E').
  destruct (S i mod 5 =? 0)%nat.
  - rewrite E'. cbn [app].
    erewrite bind_ok by (erewrite bind_ok by apply cost_run; reflexivity).
    rewrite ret_run. cbn [stdout opt_updates dev_state]. eexists; reflexivity.
  - erewrite bind_ok by reflexivity. rewrite ret_run.
    cbn [stdout opt_updates dev_state]. rewrite app_nil_r. eexists; reflexivity.
Qed.

Lemma for_range_general (n i : nat) (q rest : list R) (w : world) :
  length q = 2%nat ->
  exists d,
    for_range (seq i n) loop_body (q ++ rest) w =
    (Ok (Nat.iter n descend q ++ rest),
     mkWorld d (stdout w ++ progress_lines i n q) (opt_updates w + n)).
Proof.
  revert i q w. induction n as [|n IH]; intros i q w H.
  - cbn. exists (dev_state w). unfold ret, progress_lines, printed_steps. cbn.
    rewrite app_nil_r, Nat.add_0_r. destruct w; reflexivity.
  - cbn [seq for_range].
    destruct (length2_inv q H) as (a & b & ->).
    destruct (loop_body_general i a b rest w) as (d1 & E1).
    cbn [app]. erewrite bind_ok by exact E1.
    destruct (IH (S i) (descend [a; b])
                (mkWorld d1
                   (stdout w ++
                    (if (S i mod 5 =? 0)%nat
                     then [CostAfterStep (S i) (closed_form (descend [a; b]))]
                     else []))
                   (S (opt_updates w)))
                (descend_length _ H)) as (d2 & E2).
    rewrite E2. cbn [stdout opt_updates].
    exists d2. rewrite progress_lines_step, <- app_assoc, Nat.iter_succ_r.
    do 2 f_equal. lia.
Qed.

(** ** The rotations keep the state normalised *)

Lemma norm2_RX (phi : R) (s : Qubit.state) :
  norm2 (Qubit.apply_matrix (Qubit.RX_matrix phi) s) = norm2 s.
Proof.
  destruct s as [[ar ai] [br bi]].
  unfold norm2, Qubit.apply_matrix, Qubit.RX_matrix, Qubit.Cmod2, Qubit.Cplus,
    Qubit.Cmult, Qubit.Cre, Qubit.Cim; cbn.
  generalize (sin2_cos2 (phi / 2)); unfold Rsqr.
  generalize (sin (phi / 2)) (cos (phi / 2)); intros s c H.
  replace (ar * ar + ai * ai + (br * br + bi * bi))
    with ((s * s + c * c) * (ar * ar + ai * ai + (br * br + bi * bi)))
    by (rewrite H; ring).
  ring.
Qed.

Lemma norm2_RY (phi : R) (s : Qubit.state) :
  norm2 (Qubit.apply_matrix (Qubit.RY_matrix phi) s) = norm2 s.
Proof.
  destruct s as [[ar ai] [br bi]].
  unfold norm2, Qubit.apply_matrix, Qubit.RY_matrix, Qubit.Cmod2, Qubit.Cplus,
    Qubit.Cmult, Qubit.Cre, Qubit.Cim; cbn.
  generalize (sin2_cos2 (phi / 2)); unfold Rsqr.
  generalize (sin (phi / 2)) (cos (phi / 2)); intros s c H.
  replace (ar * ar + ai * ai + (br * br + bi * bi))
    with ((s * s + c * c) * (ar * ar + ai * ai + (br * br + bi * bi)))
    by (rewrite H; ring).
  ring.
Qed.

Lemma norm2_apply_operations (ops : list operation) (s s' : Qubit.state) :
  apply_operations dev ops s = Ok s' -> norm2 s' = norm2 s.
Proof.
  revert s. induction ops as [|o ops IH]; intros s H;
    cbn [apply_operations] in H.
  - now injection H as <-.
  - destruct o as [phi k | phi k]; cbn [apply_operation] in H;
      destruct (has_wire dev k); try discriminate;
      apply IH in H; rewrite H; [apply norm2_RX | apply norm2_RY].
Qed.

Lemma expval_Z_bounded (s : Qubit.state) :
  norm2 s = 1 -> -1 <= Qubit.expval_Z s <= 1.
Proof.
  destruct s as [[ar ai] [br bi]].
  unfold norm2, Qubit.expval_Z, Qubit.Cmod2, Qubit.Cre, Qubit.Cim; cbn.
  intros H. nra.
Qed.

(** X4: whatever quantum function a node wraps, a successful call returns
    an expectation value in [-1, 1] and leaves a normalised state vector in
    the device. *)
Theorem qnode_value_bounded (qfunc : Q measurement) (w w' : world) (v : R) :
  qnode dev qfunc w = (Ok v, w') ->
  norm2 (dev_state w') = 1 /\ -1 <= v <= 1.
Proof.
  unfold qnode. destruct (record_tape qfunc) as [t | e]; [|discriminate].
  unfold execute, bind, set_dev_state, raise, ret.
  destruct (apply_operations dev (operations t) Qubit.ket0) as [s | e] eqn:Hs;
    [|discriminate].
  assert (Hn : norm2 s = 1).
  { rewrite (norm2_apply_operations _ _ _ Hs).
    unfold norm2, Qubit.ket0, Qubit.Cmod2, Qubit.Cre, Qubit.Cim; cbn. ring. }
  destruct (measure dev (measured t) s) as [v0 | e] eqn:Hm; [|discriminate].
  intros H. injection H as <- <-. cbn [dev_state].
  split; [exact Hn|].
  destruct (measured t) as [[k]]. cbn [measure] in Hm.
  destruct (has_wire dev k); [|discriminate].
  injection Hm as <-. now apply expval_Z_bounded.
Qed.

Lemma qnode_value_bounded_witness :
  circuit [54 / 100; 12 / 100] initial_world =
    (Ok (cos (54 / 100) * cos (12 / 100)),
     mkWorld (rotated (54 / 100) (12 / 100)) [] 0) /\
  -1 <= cos (54 / 100) * cos (12 / 100) <= 1.
Proof.
  assert (E := circuit_run (54 / 100) (12 / 100) [] initial_world).
  split; [exact E|].
  exact (proj2 (qnode_value_bounded _ _ _ _ E)).
Defined.

(** ** Gradients *)

(** X1: for all angles, [dcircuit] on the list [[a, b]] and the rebound
    [dcircuit] on the two scalars [a], [b] return the same two numbers, and
    these are the partial derivatives of the value [circuit] returns. *)
Theorem gradients_agree (a b : R) (w : world) :
  (forall x y w0, fst (circuit [x; y] w0) = Ok (closed_form [x; y])) /\
  exists g0 g1 w1 w2,
    dcircuit [a; b] w = (Ok [g0; g1], w1) /\
    dcircuit' a b w = (Ok (g0, g1), w2) /\
    derivable_pt_lim (fun x => closed_form [x; b]) a g0 /\
    derivable_pt_lim (fun y => closed_form [a; y]) b g1.
Proof.
  split; [intros x y w0; now rewrite circuit_run|].
  exists (- sin a * cos b), (- cos a * sin b). do 2 eexists.
  split; [apply grad_circuit_run|]. split; [apply grad2_circuit2_run|].
  split; [apply closed_form_partial_0 | apply closed_form_partial_1].
Qed.

(** X2: on a vector with more than two components [dcircuit] succeeds,
    returns a gradient of the same length whose components after the second
    are 0, and neither prints nor counts as an update. *)
Theorem dcircuit_trailing_zero (p : list R) (w : world) :
  (2 <= length p)%nat ->
  exists w',
    dcircuit p w =
      (Ok (closed_form_gradient p ++ repeat 0 (length p - 2)), w') /\
    length (closed_form_gradient p ++ repeat 0 (length p - 2)) = length p /\
    stdout w' = stdout w /\ opt_updates w' = opt_updates w.
Proof.
  intros H. destruct p as [|a [|b rest]]; cbn in H; try lia.
  destruct (grad_circuit_general a b rest w) as (d & E).
  replace (length (a :: b :: rest) - 2)%nat with (length rest)
    by (cbn [length]; lia).
  eexists. split.
  - unfold dcircuit. rewrite E. reflexivity.
  - cbn [stdout opt_updates]. split; [|split; reflexivity].
    rewrite length_app, repeat_length. cbn [length closed_form_gradient]. lia.
Qed.

Lemma dcircuit_trailing_zero_witness :
  (2 <= length [1; 2; 3])%nat /\
  fst (dcircuit [1; 2; 3] initial_world) =
  Ok [- sin 1 * cos 2; - cos 1 * sin 2; 0].
Proof.
  assert (H : (2 <= length [1; 2; 3])%nat) by (cbn; lia).
  split; [exact H|].
  destruct (dcircuit_trailing_zero [1; 2; 3] initial_world H) as (w' & E & _).
  rewrite E. reflexivity.
Defined.

(** X3: with extra trailing parameters the loop still makes its 100
    updates; it optimises the first two components exactly as for the
    two-component vector, prints the same progress lines, and returns the
    trailing components unchanged. *)
Theorem loop_keeps_trailing (p : list R) (w : world) :
  (2 <= length p)%nat ->
  exists w',
    for_range (seq 0 steps) loop_body p w =
      (Ok (Nat.iter 100 descend (firstn 2 p) ++ skipn 2 p), w') /\
    opt_updates w' = (opt_updates w + 100)%nat /\
    stdout w' = stdout w ++ progress_lines 0 100 (firstn 2 p).
Proof.
  intros H.
  assert (Hq : length (firstn 2 p) = 2%nat) by (rewrite length_firstn; lia).
  destruct (for_range_general 100 0 (firstn 2 p) (skipn 2 p) w Hq) as (d & E).
  rewrite firstn_skipn in E.
  eexists. split; [exact E|]. split; reflexivity.
Qed.

Lemma loop_keeps_trailing_witness :
  (2 <= length [11 / 1000; 12 / 1000; 7])%nat /\
  fst (for_range (seq 0 steps) loop_body [11 / 1000; 12 / 1000; 7]
         initial_world) =
  Ok (Nat.iter 100 descend init_params ++ [7]).
Proof.
  assert (H : (2 <= length [11 / 1000; 12 / 1000; 7])%nat) by (cbn; lia).
  split; [exact H|].
  destruct (loop_keeps_trailing [11 / 1000; 12 / 1000; 7] initial_world H)
    as (w' & E & _).
  rewrite E. reflexivity.
Defined.

(** ** Descent *)



Lemma closed_form_bounds (p : list R) : -1 <= closed_form p <= 1.
Proof.
  unfold closed_form.
  generalize (COS_bound (nth 0 p 0)) (COS_bound (nth 1 p 0)). intros.
  split; nra.
Qed.



(** ** Zero gradient *)

Lemma descend_zero_gradient (a b : R) :
  closed_form_gradient [a; b] = [0; 0] -> descend [a; b] = [a; b].
Proof.
  unfold closed_form_gradient; cbn [nth]. intros E. injection E as Ea Eb.
  rewrite descend_pair, Ea, Eb. f_equal; [lra | f_equal; lra].
Qed.

Lemma iter_descend_fixed (n : nat) (p : list R) :
  descend p = p -> Nat.iter n descend p = p.
Proof.
  intros H. induction n as [|n IH]; [reflexivity|].
  rewrite Nat.iter_succ, IH. exact H.
Qed.

Lemma grad_cost_short (p : list R) (w : world) :
  (length p < 2)%nat -> grad cost p w = (Raise IndexError, w).
Proof.
  intros H. unfold grad. apply bind_raise. now apply circuit_short.
Qed.

(** X7: when the gradient computed at the parameters is zero in every
    component, the loop still makes its 100 updates, hands back the starting
    parameters and shows the starting cost on each of its 20 progress
    lines. *)
Theorem stationary_start (p : list R) (w : world) :
  fst (grad cost p w) = Ok [0; 0] ->
  exists c w0 w',
    cost p w = (Ok c, w0) /\
    for_range (seq 0 steps) loop_body p w = (Ok p, w') /\
    opt_updates w' = (opt_updates w + 100)%nat /\
    stdout w' = stdout w ++ map (fun j => CostAfterStep (5 * j) c) (seq 1 20).
Proof.
  intros Hg.
  destruct p as [|a [|b rest]].
  - rewrite grad_cost_short in Hg by (cbn; lia). discriminate.
  - rewrite grad_cost_short in Hg by (cbn; lia). discriminate.
  - destruct (grad_circuit_general a b rest w) as (d0 & E0).
    unfold cost in Hg. fold circuit in Hg.
    change (grad (fun x => circuit x) (a :: b :: rest) w)
      with (grad circuit (a :: b :: rest) w) in Hg.
    rewrite E0 in Hg. cbn [fst] in Hg. injection Hg as H0 H1 Hrest.
    assert (rest = []) by (destruct rest; [reflexivity | discriminate]).
    subst rest.
    assert (Hz : closed_form_gradient [a; b] = [0; 0]).
    { unfold closed_form_gradient; cbn [nth]. now rewrite H0, H1. }
    assert (Hfix := descend_zero_gradient a b Hz).
    destruct (for_range_run 100 0 [a; b] w eq_refl) as (d & E).
    rewrite (iter_descend_fixed 100 _ Hfix) in E.
    exists (closed_form [a; b]). do 2 eexists.
    split; [apply cost_run|]. split; [exact E|]. split; [reflexivity|].
    cbn [stdout]. f_equal. rewrite progress_lines_100.
    apply map_ext. intros j. now rewrite iter_descend_fixed.
Qed.

Lemma stationary_start_witness :
  fst (grad cost [0; 0] initial_world) = Ok [0; 0] /\
  fst (for_range (seq 0 steps) loop_body [0; 0] initial_world) = Ok [0; 0].
Proof.
  assert (Hg : fst (grad cost [0; 0] initial_world) = Ok [0; 0]).
  { rewrite grad_cost_run. unfold closed_form_gradient; cbn [fst nth].
    rewrite sin_0. f_equal. f_equal; [ring | f_equal; ring]. }
  split; [exact Hg|].
  destruct (stationary_start [0; 0] initial_world Hg) as (c & w0 & w' & _ & E & _).
  rewrite E. reflexivity.
Defined.

(** ** Where the optimisation ends *)

Lemma cos_lower (t : R) : 0 <= t <= 1 -> 1 - t * t / 2 <= cos t.
Proof.
  intros [H0 H1]. assert (Hpi := PI2_1).
  replace t with (2 * (t / 2)) at 3 by field. rewrite cos_2a_sin.
  assert (0 <= sin (t / 2)) by (apply sin_ge_0; lra).
  assert (sin (t / 2) <= t / 2) by (apply sin_le_x; lra).
  nra.
Qed.

Lemma cos_near_PI (x eps : R) :
  x <= PI -> PI - x <= eps -> eps <= 1 -> cos x <= -1 + eps * eps / 2.
Proof.
  intros H1 H2 H3.
  replace x with (- (PI - x) + PI) by ring. rewrite neg_cos, cos_neg.
  generalize (cos_lower (PI - x)). intros Hc.
  assert (Hu : 0 <= PI - x <= 1) by lra. specialize (Hc Hu). nra.
Qed.

Lemma angles_of_pair (p : list R) :
  nth 0 p 0 = (angle_sum p - angle_diff p) / 2 /\
  nth 1 p 0 = (angle_sum p + angle_diff p) / 2.
Proof. unfold angle_sum, angle_diff. split; field. Qed.

(** X8: from any two starting angles whose sum and difference
    [params[1] - params[0]] both lie between 0.001 and PI, the 100 updates
    end within 1e-12 of the angles (0, PI), where the cost is within 1e-12 of
    its least possible value -1. *)
Theorem optimisation_finds_minimum (p : list R) (w : world) :
  length p = 2%nat ->
  1 / 1000 <= nth 0 p 0 + nth 1 p 0 <= PI ->
  1 / 1000 <= nth 1 p 0 - nth 0 p 0 <= PI ->
  exists final w',
    for_range (seq 0 steps) loop_body p w = (Ok final, w') /\
    Rabs (nth 0 final 0) <= 1 / 10 ^ 12 /\
    Rabs (nth 1 final 0 - PI) <= 1 / 10 ^ 12 /\
    -1 <= closed_form final <= -1 + 1 / 10 ^ 12 /\
    (forall q, -1 <= closed_form q).
Proof.
  intros H Hs Hd. fold (angle_sum p) in Hs. fold (angle_diff p) in Hd.
  destruct (for_range_run 100 0 p w H) as (d & E).
  set (F := Nat.iter 100 descend p) in *.
  exists F. eexists. split; [exact E|].
  destruct (iter_phi_100 _ Hs) as [Hs0 Hs1].
  destruct (iter_phi_100 _ Hd) as [Hd0 Hd1].
  rewrite <- (angle_sum_iter 100 p H) in Hs0, Hs1.
  rewrite <- (angle_diff_iter 100 p H) in Hd0, Hd1.
  fold F in Hs0, Hs1, Hd0, Hd1.
  assert (Heps : 0 < 1 / 10 ^ 12 <= 1) by (cbn [pow]; lra).
  destruct (angles_of_pair F) as [E0 E1].
  assert (Hcs := cos_near_PI (angle_sum F) (1 / 10 ^ 12)).
  assert (Hcd := cos_near_PI (angle_diff F) (1 / 10 ^ 12)).
  assert (Hb := closed_form_bounds F).
  set (e := 1 / 10 ^ 12) in *.
  split; [rewrite E0; apply Rabs_le; lra|].
  split; [rewrite E1; apply Rabs_le; lra|].
  split.
  - split; [lra|]. rewrite closed_form_angles.
    assert (cos (angle_sum F) <= -1 + e * e / 2) by (apply Hcs; lra).
    assert (cos (angle_diff F) <= -1 + e * e / 2) by (apply Hcd; lra).
    nra.
  - intros q. apply closed_form_bounds.
Qed.

Lemma optimisation_finds_minimum_witness :
  length init_params = 2%nat /\
  exists final w',
    for_range (seq 0 steps) loop_body init_params initial_world =
      (Ok final, w') /\
    Rabs (nth 0 final 0) <= 1 / 10 ^ 12 /\
    Rabs (nth 1 final 0 - PI) <= 1 / 10 ^ 12.
Proof.
  split; [reflexivity|].
  assert (Hpi := PI2_1).
  assert (Hs : 1 / 1000 <= nth 0 init_params 0 + nth 1 init_params 0 <= PI)
    by (unfold init_params; cbn [nth]; lra).
  assert (Hd : 1 / 1000 <= nth 1 init_params 0 - nth 0 init_params 0 <= PI)
    by (unfold init_params; cbn [nth]; lra).
  destruct (optimisation_finds_minimum init_params initial_world eq_refl Hs Hd)
    as (final & w' & E & H0 & H1 & _).
  exists final, w'. repeat split; assumption.
Defined.

(** ** Symmetry of the circuit *)

(** X9: the value [circuit] returns does not change when an angle is
    replaced by its negative. *)
Theorem circuit_even (a b : R) (w : world) :
  fst (circuit [- a; b] w) = fst (circuit [a; b] w) /\
  fst (circuit [a; - b] w) = fst (circuit [a; b] w) /\
  fst (circuit [- a; - b] w) = fst (circuit [a; b] w).
Proof.
  rewrite !circuit_run. cbn [fst]. rewrite !cos_neg. repeat split.
Qed.

(** ** What the optimisation part prints *)

(** X10: for any two starting parameters the optimisation part succeeds
    after 100 updates and prints 22 lines: the cost of the starting
    parameters, the twenty progress lines, and the final parameters; the cost
    on the last progress line (step 100) is the cost of the parameters on the
    final line. *)
Theorem optimise_output_consistent (p : list R) (w : world) :
  length p = 2%nat ->
  exists w' c0 lines c100 final w1 w2,
    optimise p w = (Ok tt, w') /\
    opt_updates w' = (opt_updates w + 100)%nat /\
    stdout w' =
      stdout w ++ [PrintInitCost c0] ++ lines
      ++ [CostAfterStep 100 c100; OptimizedAngles final] /\
    length lines = 19%nat /\
    Forall (fun l => kind_of l = KProgress) lines /\
    cost p w = (Ok c0, w1) /\
    cost final w' = (Ok c100, w2).
Proof.
  intros H. destruct (optimise_run p w H) as (d & E).
  set (F := Nat.iter 100 descend p).
  assert (HF : length F = 2%nat) by now apply iter_descend_length.
  destruct (length2_inv p H) as (a & b & Ep).
  destruct (length2_inv F HF) as (a' & b' & EF).
  set (f := fun j => CostAfterStep (5 * j)
                       (closed_form (Nat.iter (5 * j) descend p))).
  eexists. exists (closed_form p), (map f (seq 1 19)), (closed_form F), F.
  do 2 eexists.
  split; [exact E|]. cbn [stdout opt_updates].
  split; [reflexivity|].
  split.
  { change steps with 100%nat. rewrite progress_lines_100. fold f. fold F.
    change (seq 1 20) with (seq 1 19 ++ [20%nat]).
    rewrite map_app, <- app_assoc. reflexivity. }
  split; [rewrite length_map, length_seq; reflexivity|].
  split; [apply Forall_forall; intros l Hl; apply in_map_iff in Hl;
          destruct Hl as (j & <- & _); reflexivity|].
  split.
  - rewrite Ep. apply cost_run.
  - rewrite EF. apply cost_run.
Qed.

Lemma optimise_output_consistent_witness :
  length init_params = 2%nat /\
  exists w', optimise init_params initial_world = (Ok tt, w') /\
             opt_updates w' = 100%nat.
Proof.
  split; [reflexivity|].
  destruct (optimise_output_consistent init_params initial_world eq_refl)
    as (w' & c0 & lines & c100 & final & w1 & w2 & E & Hu & _).
  exists w'. split; [exact E | exact Hu].
Defined.
